(** * Snake game (snake_game.py): the game-state machine of [SnakeGame]

    A shallow embedding of the state-carrying methods of the Textual widget
    [SnakeGame] : [reset_game], [place_food], [game_loop], [change_direction],
    [toggle_pause], together with the part of [update_display] that can
    influence control flow, the board text and style spans it builds, and
    the restart action of [SnakeApp].  Python integers are unbounded, hence [Z]; the
    snake is a Python list of tuples, head first, hence [list (Z * Z)];
    the module-level generator of [random] is an explicit entropy source that
    every call to [randint] advances. *)

From stdpp Require Import base decidable countable numbers strings list gmap.

Local Open Scope Z_scope.

(** ** Data model *)

(** [class Direction(Enum)] : four members numbered by [auto()]. *)
Inductive Direction : Set := UP | DOWN | LEFT | RIGHT.

#[global] Instance Direction_eq_dec : EqDecision Direction.
Proof. solve_decision. Defined.

(** The value [auto()] gives each member, 1 to 4 in declaration order. *)
Definition Direction_value (d : Direction) : positive :=
  match d with UP => 1 | DOWN => 2 | LEFT => 3 | RIGHT => 4 end%positive.

Definition Direction_of_value (p : positive) : option Direction :=
  match p with
  | 1 => Some UP | 2 => Some DOWN | 3 => Some LEFT | 4 => Some RIGHT
  | _ => None
  end%positive.

Lemma Direction_of_value_value d : Direction_of_value (Direction_value d) = Some d.
Proof. by destruct d. Qed.

#[global] Instance Direction_countable : Countable Direction :=
  inj_countable Direction_value Direction_of_value Direction_of_value_value.

(** A grid cell is the tuple [(x, y)]. *)
Definition Cell : Type := Z * Z.

(** The reactive attributes of the widget (lines 34-39). *)
Record SnakeGame : Type := mkSnakeGame {
  snake : list Cell;
  food : Cell;
  direction : Direction;
  score : Z;
  game_over : bool;
  paused : bool
}.

(** Class constants (lines 42-43). *)
Definition WIDTH : Z := 30.
Definition HEIGHT : Z := 20.

(** Attribute assignments [self.<field> = v]. *)
Definition set_snake (v : list Cell) (g : SnakeGame) : SnakeGame :=
  mkSnakeGame v (food g) (direction g) (score g) (game_over g) (paused g).
Definition set_food (v : Cell) (g : SnakeGame) : SnakeGame :=
  mkSnakeGame (snake g) v (direction g) (score g) (game_over g) (paused g).
Definition set_direction (v : Direction) (g : SnakeGame) : SnakeGame :=
  mkSnakeGame (snake g) (food g) v (score g) (game_over g) (paused g).
Definition set_score (v : Z) (g : SnakeGame) : SnakeGame :=
  mkSnakeGame (snake g) (food g) (direction g) v (game_over g) (paused g).
Definition set_game_over (v : bool) (g : SnakeGame) : SnakeGame :=
  mkSnakeGame (snake g) (food g) (direction g) (score g) v (paused g).
Definition set_paused (v : bool) (g : SnakeGame) : SnakeGame :=
  mkSnakeGame (snake g) (food g) (direction g) (score g) (game_over g) v.

(** ** The random source

    [random.randint(a, b)] returns some integer of the inclusive range
    [a..b] and advances the global generator.  The generator is modelled by
    an arbitrary infinite sequence of raw naturals and the number of values
    already drawn; the raw value is folded into the range, so that every
    result lies in the range and every member of the range can be the
    result. *)
Record Rng : Type := mkRng {
  raw : nat → nat;
  drawn : nat
}.

Definition randint (a b : Z) (r : Rng) : Z * Rng :=
  (a + Z.of_nat (raw r (drawn r)) `mod` (b - a + 1),
   mkRng (raw r) (S (drawn r))).

(** ** Control outcomes

    A call either returns, or leaves through an uncaught exception, or is
    still inside [place_food]'s [while True] loop when the fuel of the model
    is used up.  Each outcome carries the object state at that moment, since
    the attribute assignments made before are not undone. *)
Inductive exn : Set := IndexError.

Inductive outcome (A : Type) : Type :=
| Returned (a : A)
| Raised (e : exn) (a : A)
| Spinning (a : A).
Arguments Returned {A} a.
Arguments Raised {A} e a.
Arguments Spinning {A} a.

Definition state_of {A : Type} (o : outcome A) : A :=
  match o with Returned a | Raised _ a | Spinning a => a end.

(** The widget together with the generator it draws from. *)
Definition World : Type := SnakeGame * Rng.

(** ** Methods *)

(** [place_food] (lines 62-69): rejection sampling, [x] drawn before [y]. *)
Fixpoint place_food (fuel : nat) (g : SnakeGame) (r : Rng) : outcome World :=
  match fuel with
  | O => Spinning (g, r)
  | S fuel' =>
      let '(x, r1) := randint 0 (WIDTH - 1) r in
      let '(y, r2) := randint 0 (HEIGHT - 1) r1 in
      if decide ((x, y) ∉ snake g)
      then Returned (set_food (x, y) g, r2)
      else place_food fuel' g r2
  end.

(** [reset_game] (lines 50-60). *)
Definition reset_game (fuel : nat) (g : SnakeGame) (r : Rng) : outcome World :=
  let start_x := WIDTH `div` 2 in
  let start_y := HEIGHT `div` 2 in
  let g := set_snake [(start_x, start_y); (start_x - 1, start_y); (start_x - 2, start_y)] g in
  let g := set_direction RIGHT g in
  let g := set_score 0 g in
  let g := set_game_over false g in
  let g := set_paused false g in
  place_food fuel g r.

(** [update_display] (lines 118-163) only reads the game and hands a panel
    to the framework.  What matters to the state machine is whether it
    raises: past the game-over banner, the first grid cell is compared with
    [self.snake[0]], which is an [IndexError] on an empty snake. *)
Definition update_display (g : SnakeGame) : option exn :=
  if game_over g then None
  else match snake g with
       | [] => Some IndexError
       | _ :: _ => None
       end.

Definition display_and_return (w : World) : outcome World :=
  match update_display w.1 with
  | Some e => Raised e w
  | None => Returned w
  end.

(** The head moved by one unit (lines 84-91). *)
Definition new_head (d : Direction) (head : Cell) : Cell :=
  let '(head_x, head_y) := head in
  match d with
  | UP => (head_x, head_y - 1)
  | DOWN => (head_x, head_y + 1)
  | LEFT => (head_x - 1, head_y)
  | RIGHT => (head_x + 1, head_y)
  end.

(** The wall test of lines 94-95. *)
Definition outside_grid (c : Cell) : bool :=
  (c.1 <? 0) || (c.1 >=? WIDTH) || (c.2 <? 0) || (c.2 >=? HEIGHT).

(** [game_loop] (lines 76-116), one tick. *)
Definition game_loop (fuel : nat) (g : SnakeGame) (r : Rng) : outcome World :=
  if game_over g || paused g then Returned (g, r)
  else
    match snake g with
    | [] => Raised IndexError (g, r)
    | head :: _ =>
        let nh := new_head (direction g) head in
        if outside_grid nh then
          display_and_return (set_game_over true g, r)
        else if decide (nh ∈ snake g) then
          display_and_return (set_game_over true g, r)
        else
          let g := set_snake (nh :: snake g) g in
          if decide (nh = food g) then
            let g := set_score (score g + 10) g in
            match place_food fuel g r with
            | Returned w => display_and_return w
            | o => o
            end
          else
            let g := set_snake (removelast (snake g)) g in
            display_and_return (g, r)
    end.

(** The dictionary literal of lines 171-176. *)
Definition opposites : gmap Direction Direction :=
  {[ UP := DOWN; DOWN := UP; LEFT := RIGHT; RIGHT := LEFT ]}.

(** [change_direction] (lines 165-179); it neither draws nor displays. *)
Definition change_direction (new_direction : Direction) (g : SnakeGame) : SnakeGame :=
  if game_over g then g
  else if decide (opposites !! new_direction ≠ Some (direction g))
       then set_direction new_direction g
       else g.

(** [toggle_pause] (lines 181-185). *)
Definition toggle_pause (g : SnakeGame) (r : Rng) : outcome World :=
  if negb (game_over g) then
    let g := set_paused (negb (paused g)) g in
    display_and_return (g, r)
  else Returned (g, r).

(** ** The operations as the specification names them

    [step()] is [game_loop], [setDirection(d)] is [change_direction],
    [togglePause()] is [toggle_pause] and [reset()] is [reset_game]. *)
Inductive Op : Set :=
| Step
| SetDirection (d : Direction)
| TogglePause
| Reset.

#[global] Instance Op_eq_dec : EqDecision Op.
Proof. solve_decision. Defined.

Definition perform (fuel : nat) (o : Op) (w : World) : outcome World :=
  match o with
  | Step => game_loop fuel w.1 w.2
  | SetDirection d => Returned (change_direction d w.1, w.2)
  | TogglePause => toggle_pause w.1 w.2
  | Reset => reset_game fuel w.1 w.2
  end.

(** A script of operations, stopping at the first call that does not return. *)
Fixpoint run (fuel : nat) (ops : list Op) (w : World) : outcome World :=
  match ops with
  | [] => Returned w
  | o :: ops' =>
      match perform fuel o w with
      | Returned w' => run fuel ops' w'
      | stuck => stuck
      end
  end.

(** States that some history starting with a reset can produce.  The
    generator is left arbitrary between calls. *)
Inductive reachable : SnakeGame → Prop :=
| reachable_reset fuel g r g' r' :
    reset_game fuel g r = Returned (g', r') →
    reachable g'
| reachable_perform fuel o g r g' r' :
    reachable g →
    perform fuel o (g, r) = Returned (g', r') →
    reachable g'.

(** ** Vocabulary of the specification *)

(** The opposite of a direction, as a function on the four variants. *)
Definition opposite (d : Direction) : Direction :=
  match d with UP => DOWN | DOWN => UP | LEFT => RIGHT | RIGHT => LEFT end.

(** Two directions are perpendicular when neither equal nor opposite. *)
Definition perpendicular (p d : Direction) : Prop :=
  p ≠ d ∧ p ≠ opposite d.

(** Membership of the rectangle [0,WIDTH) x [0,HEIGHT). *)
Definition in_grid (c : Cell) : Prop :=
  0 ≤ c.1 < WIDTH ∧ 0 ≤ c.2 < HEIGHT.

(** The two predicates on snake and food that must never fail. *)
Definition no_overlap (g : SnakeGame) : Prop := NoDup (snake g).
Definition food_clear (g : SnakeGame) : Prop := food g ∉ snake g.

(** Every returning operation other than a reset, seen on the snake, the
    food and the score: what it returns with has one of three shapes. *)
Inductive effect (g g' : SnakeGame) : Prop :=
| effect_none :
    snake g' = snake g → food g' = food g → score g' = score g →
    effect g g'
| effect_eat nh :
    nh ∉ snake g → snake g' = nh :: snake g →
    in_grid (food g') → food g' ∉ snake g' → score g' = score g + 10 →
    effect g g'
| effect_move nh :
    nh ∉ snake g → nh ≠ food g → snake g ≠ [] →
    snake g' = nh :: removelast (snake g) →
    food g' = food g → score g' = score g →
    effect g g'.

(** The generator after [k] rounds of [place_food]'s loop body, and the
    cell that round [k] proposes. *)
Fixpoint after_rounds (k : nat) (r : Rng) : Rng :=
  match k with
  | O => r
  | S k' => after_rounds k' ((randint 0 (HEIGHT - 1) (randint 0 (WIDTH - 1) r).2).2)
  end.

Definition candidate (r : Rng) (k : nat) : Cell :=
  let r0 := after_rounds k r in
  let '(x, r1) := randint 0 (WIDTH - 1) r0 in
  let '(y, _) := randint 0 (HEIGHT - 1) r1 in
  (x, y).

(** ** The application's restart action

    [SnakeApp.action_restart] (lines 292-295), also run by the restart
    button (lines 297-300): [reset_game], then [update_display]. *)
Definition action_restart (fuel : nat) (g : SnakeGame) (r : Rng) : outcome World :=
  match reset_game fuel g r with
  | Returned w => display_and_return w
  | o => o
  end.

(** ** Geometry of the grid *)

(** Two cells that share a side. *)
Definition adjacent (a b : Cell) : Prop :=
  Z.abs (a.1 - b.1) + Z.abs (a.2 - b.2) = 1.

(** Every cell of the list shares a side with the one after it. *)
Fixpoint contiguous (l : list Cell) : Prop :=
  match l with
  | a :: l' => match l' with
               | b :: _ => adjacent a b ∧ contiguous l'
               | [] => True
               end
  | [] => True
  end.

(** The cells of the grid, row by row, as the display loops visit them. *)
Definition grid_cells : list Cell :=
  y ← seqZ 0 HEIGHT; x ← seqZ 0 WIDTH; [(x, y)].

(** Snake and food lie on the grid. *)
Definition within_grid (g : SnakeGame) : Prop :=
  Forall in_grid (snake g) ∧ in_grid (food g).

(** ** The board drawn by [update_display] (lines 129-156)

    A Python string is a sequence of code points; a character is modelled
    by its code point.  The panel header and the game-over banner are left
    out. *)

(** The four cell texts of lines 135-141: two dark shades, two full
    blocks, a black circle and a space, two spaces. *)
Definition HEAD_GLYPH : list N := [9619; 9619]%N.
Definition BODY_GLYPH : list N := [9608; 9608]%N.
Definition FOOD_GLYPH : list N := [9679; 32]%N.
Definition EMPTY_GLYPH : list N := [32; 32]%N.
Definition NEWLINE : list N := [10]%N.

(** [sep.join(parts)]. *)
Fixpoint str_join (sep : list N) (parts : list (list N)) : list N :=
  match parts with
  | [] => []
  | p :: rest =>
      match rest with
      | [] => p
      | _ :: _ => p ++ sep ++ str_join sep rest
      end
  end.

(** The text of one cell (lines 134-141), [head] being [self.snake[0]]. *)
Definition cell_glyph (g : SnakeGame) (head c : Cell) : list N :=
  if decide (c = head) then HEAD_GLYPH
  else if decide (c ∈ snake g) then BODY_GLYPH
  else if decide (c = food g) then FOOD_GLYPH
  else EMPTY_GLYPH.

(** [lines] (lines 130-142).  [self.snake[0]] is read at every cell, so an
    empty snake raises at the first one: [None]. *)
Definition board_lines (g : SnakeGame) : option (list (list N)) :=
  match snake g with
  | [] => None
  | head :: _ =>
      Some ((λ y, str_join [] ((λ x, cell_glyph g head (x, y)) <$> seqZ 0 WIDTH))
              <$> seqZ 0 HEIGHT)
  end.

(** The plain text handed to [Text] (line 145). *)
Definition board_text (g : SnakeGame) : option (list N) :=
  str_join NEWLINE <$> board_lines g.

(** The style chosen for a cell (lines 151-156), if any. *)
Definition cell_style (g : SnakeGame) (head c : Cell) : option string :=
  if decide (c = head) then Some "bold bright_green"%string
  else if decide (c ∈ snake g) then Some "bright_green"%string
  else if decide (c = food g) then Some "bold bright_red"%string
  else None.

(** [enumerate(lines)]. *)
Definition enumerate {A : Type} (l : list A) : list (Z * A) :=
  zip (seqZ 0 (Z.of_nat (length l))) l.

(** The calls [text.stylize(style, start, end)] of lines 148-156, in the
    order they are made. *)
Definition stylize_calls (g : SnakeGame) : option (list (string * Z * Z)) :=
  match board_lines g, snake g with
  | Some lines, head :: _ =>
      Some (yl ← enumerate lines;
            x ← seqZ 0 WIDTH;
            let y := yl.1 in
            let char_pos := x * 2 in
            match cell_style g head (x, y) with
            | Some style => [(style, char_pos + y, char_pos + y + 2)]
            | None => []
            end)
  | _, _ => None
  end.


(** ** Test fixtures: the scenarios of the specification *)

Definition counting : Rng := mkRng (λ n, n) 0.

Definition scenario_food : SnakeGame :=
  mkSnakeGame [(15, 10); (14, 10); (13, 10)] (20, 10) RIGHT 0 false false.

Definition scenario_wall : SnakeGame :=
  mkSnakeGame [(0, 10); (1, 10); (2, 10)] (20, 10) LEFT 0 false false.

(** A four-cell loop whose head is about to enter its own tail cell. *)
Definition scenario_tail : SnakeGame :=
  mkSnakeGame [(1, 1); (1, 2); (2, 2); (2, 1)] (5, 5) RIGHT 10 false false.

(** One cell short of the food. *)
Definition scenario_near : SnakeGame :=
  mkSnakeGame [(19, 10); (18, 10); (17, 10)] (20, 10) RIGHT 0 false false.

(** A generator whose first proposal is the cell right of the fresh head. *)
Definition food_ahead : Rng :=
  mkRng (λ n, match n with 0 => 16 | 1 => 10 | _ => n end)%nat 0.

(** The game after a reset and one tick that ate, under [food_ahead]. *)
Definition scenario_fed : SnakeGame :=
  mkSnakeGame [(16, 10); (15, 10); (14, 10); (13, 10)] (2, 3) RIGHT 10 false false.

(** The game after a reset and one plain tick, under [counting]. *)
Definition scenario_moved : SnakeGame :=
  mkSnakeGame [(16, 10); (15, 10); (14, 10)] (0, 1) RIGHT 0 false false.

(** The attribute defaults before [__init__] has called [reset_game]. *)
Definition class_defaults : SnakeGame :=
  mkSnakeGame [] (0, 0) RIGHT 0 false false.

(** A path through every cell of the grid, left to right on even rows and
    right to left on odd rows, from [(0,0)] to [(0,19)]. *)
Definition serpentine : list Cell :=
  y ← seqZ 0 HEIGHT;
  (λ x, (if Z.even y then x else WIDTH - 1 - x, y)) <$> seqZ 0 WIDTH.

(** The snake lying along that path with its head one cell short of the
    end, where the food is: 599 cells, one tick from filling the grid. *)
Definition scenario_last_cell : SnakeGame :=
  mkSnakeGame (tail (reverse serpentine)) (0, 19) LEFT 5960 false false.

(** Closed goals on concrete cells. *)
Ltac absent_cell :=
  let H := fresh "H" in
  intros H;
  repeat (apply elem_of_cons in H as [H|H]; [discriminate H|]);
  by apply elem_of_nil in H.

Ltac inside_grid := unfold in_grid, WIDTH, HEIGHT; cbn; lia.

(** ** The scenarios, run *)

Example scenario_food_five_ticks :
  run 1 [Step; Step; Step; Step; Step] (scenario_food, counting)
  = Returned (mkSnakeGame [(20, 10); (19, 10); (18, 10); (17, 10)]
                (0, 1) RIGHT 10 false false,
              mkRng (λ n, n) 2).
Proof. vm_compute. reflexivity. Qed.

Example scenario_wall_one_tick :
  game_loop 0 scenario_wall counting
  = Returned (set_game_over true scenario_wall, counting).
Proof. vm_compute. reflexivity. Qed.

Example class_defaults_tick_raises :
  game_loop 0 class_defaults counting = Raised IndexError (class_defaults, counting).
Proof. reflexivity. Qed.

(** ** Basic facts about the pieces *)

Lemma WIDTH_pos : 0 < WIDTH.
Proof. reflexivity. Qed.

Lemma HEIGHT_pos : 0 < HEIGHT.
Proof. reflexivity. Qed.

Lemma outside_grid_false c : outside_grid c = false ↔ in_grid c.
Proof.
  unfold outside_grid, in_grid. rewrite !orb_false_iff.
  rewrite !Z.ltb_ge, !Z.geb_leb, !Z.leb_gt. tauto.
Qed.

Lemma outside_grid_true c : outside_grid c = true ↔ ¬ in_grid c.
Proof.
  rewrite <- outside_grid_false. destruct (outside_grid c); split; congruence.
Qed.

Lemma opposites_lookup d : opposites !! d = Some (opposite d).
Proof. destruct d; reflexivity. Qed.

Lemma opposite_involutive d : opposite (opposite d) = d.
Proof. by destruct d. Qed.

Lemma randint_range a b r : a ≤ b → a ≤ (randint a b r).1 ≤ b.
Proof.
  intros Hab. unfold randint. simpl.
  pose proof (Z.mod_pos_bound (Z.of_nat (raw r (drawn r))) (b - a + 1)). lia.
Qed.

(** Every member of the range is a possible result. *)
Lemma randint_onto a b v :
  a ≤ v ≤ b → ∃ r, (randint a b r).1 = v.
Proof.
  intros Hv. exists (mkRng (λ _, Z.to_nat (v - a)) 0). unfold randint. simpl.
  rewrite Z2Nat.id by lia. rewrite Z.mod_small; lia.
Qed.

Lemma candidate_in_grid r k : in_grid (candidate r k).
Proof.
  unfold candidate, in_grid.
  generalize (after_rounds k r). intros r0.
  pose proof (randint_range 0 (WIDTH - 1) r0) as Hx.
  destruct (randint 0 (WIDTH - 1) r0) as [x r1].
  pose proof (randint_range 0 (HEIGHT - 1) r1) as Hy.
  destruct (randint 0 (HEIGHT - 1) r1) as [y r2].
  pose proof WIDTH_pos. pose proof HEIGHT_pos. simpl in *. lia.
Qed.

(** One unfolding of the loop, in terms of [candidate]. *)
Lemma place_food_round fuel g r :
  place_food (S fuel) g r
  = if decide (candidate r 0 ∉ snake g)
    then Returned (set_food (candidate r 0) g, after_rounds 1 r)
    else place_food fuel g (after_rounds 1 r).
Proof. reflexivity. Qed.

(** What a finished [place_food] has done: the first free candidate became
    the food, nothing else changed, and the loop ran once per candidate. *)
Lemma place_food_returned fuel g r w :
  place_food fuel g r = Returned w →
  ∃ k, (k < fuel)%nat
       ∧ w = (set_food (candidate r k) g, after_rounds (S k) r)
       ∧ (candidate r k ∉ snake g)
       ∧ (∀ j, (j < k)%nat → candidate r j ∈ snake g).
Proof.
  revert r. induction fuel as [|fuel IH]; intros r; [discriminate|].
  rewrite place_food_round. case_decide as Hfree.
  - intros [= <-]. exists 0%nat. repeat split; [lia|done|lia].
  - intros Hrun. destruct (IH _ Hrun) as (k & Hk & -> & Hk' & Hbefore).
    exists (S k). repeat split; [lia|done|].
    intros [|j] Hj.
    + exact Hfree.
    + apply (Hbefore j). lia.
Qed.

(** Enough fuel: a free candidate in round [k] makes [S k] rounds suffice. *)
Lemma place_food_enough k g r :
  candidate r k ∉ snake g → ∃ w, place_food (S k) g r = Returned w.
Proof.
  revert r. induction k as [|k IH]; intros r Hfree; rewrite place_food_round.
  - rewrite decide_True by done. eauto.
  - case_decide; [eauto|]. apply IH. exact Hfree.
Qed.

(** More fuel never changes a result already obtained. *)
Lemma place_food_more_fuel fuel fuel' g r w :
  (fuel ≤ fuel')%nat → place_food fuel g r = Returned w →
  place_food fuel' g r = Returned w.
Proof.
  revert fuel' r. induction fuel as [|fuel IH]; intros fuel' r Hle; [discriminate|].
  destruct fuel' as [|fuel']; [lia|]. rewrite !place_food_round.
  case_decide; [done|]. apply IH. lia.
Qed.

(** [place_food] raises nothing, and at every moment of the loop only
    [food] can differ from the game it was called on. *)
Lemma place_food_never_raises fuel g r e w : place_food fuel g r ≠ Raised e w.
Proof.
  revert r. induction fuel as [|fuel IH]; intros r; [discriminate|].
  rewrite place_food_round. case_decide; [discriminate|apply IH].
Qed.

Lemma place_food_frame fuel g r :
  let g' := (state_of (place_food fuel g r)).1 in
  snake g' = snake g ∧ direction g' = direction g ∧ score g' = score g
  ∧ game_over g' = game_over g ∧ paused g' = paused g.
Proof.
  revert r. induction fuel as [|fuel IH]; intros r; [done|].
  rewrite place_food_round. case_decide; [done|apply IH].
Qed.

(** Where the loop cannot end: every candidate is taken. *)
Lemma place_food_spins fuel g r :
  (∀ k, candidate r k ∈ snake g) →
  place_food fuel g r = Spinning (g, after_rounds fuel r).
Proof.
  revert r. induction fuel as [|fuel IH]; intros r Hall; [done|].
  rewrite place_food_round. rewrite decide_False by (intros Hn; apply Hn, (Hall 0%nat)).
  rewrite IH; [done|]. intros k. apply (Hall (S k)).
Qed.

(** ** The tick on a running game *)

(** After the guards, and with the display step resolved: a running game
    with a head takes exactly one of four branches. *)
Lemma game_loop_running fuel g r head tl :
  game_over g = false → paused g = false → snake g = head :: tl →
  game_loop fuel g r =
    let nh := new_head (direction g) head in
    if outside_grid nh then Returned (set_game_over true g, r)
    else if decide (nh ∈ snake g) then Returned (set_game_over true g, r)
    else if decide (nh = food g)
         then place_food fuel (set_score (score g + 10) (set_snake (nh :: snake g) g)) r
         else Returned (set_snake (nh :: removelast (snake g)) g, r).
Proof.
  intros Hover Hpaused Hsnake. unfold game_loop.
  rewrite Hover, Hpaused, Hsnake. cbn [orb].
  set (nh := new_head (direction g) head). cbn zeta.
  destruct (outside_grid nh); [done|].
  case_decide; [done|]. cbn [set_snake food snake score].
  case_decide.
  - set (g2 := set_score _ _).
    destruct (place_food fuel g2 r) as [w| |] eqn:Hpf; [|done|done].
    apply place_food_returned in Hpf as (k & _ & -> & _).
    unfold display_and_return, update_display, g2. cbn.
    by rewrite Hover.
  - unfold display_and_return, update_display, set_snake. cbn.
    rewrite Hover. done.
Qed.

Section Tick.
Context (fuel : nat) (g : SnakeGame) (r : Rng) (head : Cell) (tl : list Cell).
Hypothesis running : game_over g = false.
Hypothesis unpaused : paused g = false.
Hypothesis body : snake g = head :: tl.

Lemma tick_wall :
  ¬ in_grid (new_head (direction g) head) →
  game_loop fuel g r = Returned (set_game_over true g, r).
Proof using running unpaused body.
  intros Hout. rewrite (game_loop_running _ _ _ _ _ running unpaused body).
  cbn zeta. by apply outside_grid_true in Hout as ->.
Qed.

Lemma tick_self :
  in_grid (new_head (direction g) head) →
  new_head (direction g) head ∈ snake g →
  game_loop fuel g r = Returned (set_game_over true g, r).
Proof using running unpaused body.
  intros Hin Hhit. rewrite (game_loop_running _ _ _ _ _ running unpaused body).
  cbn zeta. apply outside_grid_false in Hin as ->.
  by rewrite decide_True.
Qed.

Lemma tick_eat :
  in_grid (new_head (direction g) head) →
  new_head (direction g) head ∉ snake g →
  new_head (direction g) head = food g →
  game_loop fuel g r
  = place_food fuel
      (set_score (score g + 10)
         (set_snake (new_head (direction g) head :: snake g) g)) r.
Proof using running unpaused body.
  intros Hin Hfree Hfood. rewrite (game_loop_running _ _ _ _ _ running unpaused body).
  cbn zeta. apply outside_grid_false in Hin as ->.
  rewrite decide_False by done. by rewrite decide_True.
Qed.

Lemma tick_move :
  in_grid (new_head (direction g) head) →
  new_head (direction g) head ∉ snake g →
  new_head (direction g) head ≠ food g →
  game_loop fuel g r
  = Returned (set_snake (new_head (direction g) head :: removelast (snake g)) g, r).
Proof using running unpaused body.
  intros Hin Hfree Hfood. rewrite (game_loop_running _ _ _ _ _ running unpaused body).
  cbn zeta. apply outside_grid_false in Hin as ->.
  rewrite decide_False by done. by rewrite decide_False.
Qed.
End Tick.

(** ** Properties of a tick *)

(** C6. When [paused] or [game_over] is set, a tick is the identity: it
    returns at once with the very same game (snake, food, direction, score
    and both flags) and without drawing a random number. *)
Theorem game_loop_idle fuel g r :
  paused g = true ∨ game_over g = true →
  game_loop fuel g r = Returned (g, r).
Proof.
  intros Hidle. unfold game_loop.
  by destruct Hidle as [-> | ->]; rewrite ?orb_true_r.
Qed.

Lemma game_loop_idle_witness :
  (paused (set_paused true scenario_food) = true
   ∨ game_over (set_paused true scenario_food) = true)
  ∧ game_loop 0 (set_paused true scenario_food) counting
    = Returned (set_paused true scenario_food, counting).
Proof.
  split; [left; reflexivity|].
  apply (game_loop_idle 0 (set_paused true scenario_food) counting).
  left. reflexivity.
Defined.

(** C2. On a running game whose moved head leaves the rectangle
    [0,WIDTH) x [0,HEIGHT), the tick returns having set [game_over] and
    nothing else: snake, food, score, direction and [paused] keep their
    values, and no random number is drawn. *)
Theorem game_loop_wall_collision fuel g r head tl :
  game_over g = false → paused g = false → snake g = head :: tl →
  ¬ in_grid (new_head (direction g) head) →
  ∃ g', game_loop fuel g r = Returned (g', r)
        ∧ game_over g' = true
        ∧ snake g' = snake g ∧ food g' = food g ∧ score g' = score g
        ∧ direction g' = direction g ∧ paused g' = paused g.
Proof.
  intros Hover Hpaused Hsnake Hout.
  exists (set_game_over true g). split; [|done].
  by eapply tick_wall.
Qed.

Lemma game_loop_wall_collision_witness :
  ∃ g', game_loop 0 scenario_wall counting = Returned (g', counting)
        ∧ game_over g' = true
        ∧ snake g' = [(0, 10); (1, 10); (2, 10)] ∧ food g' = (20, 10)
        ∧ score g' = 0 ∧ direction g' = LEFT ∧ paused g' = false.
Proof.
  apply (game_loop_wall_collision 0 scenario_wall counting (0, 10) [(1, 10); (2, 10)]);
    try reflexivity.
  inside_grid.
Defined.

(** C3. On a running game whose moved head is inside the grid but already
    a cell of the snake as it is before the move, the tick returns having
    set [game_over] and with the snake as it was.  The test is made before
    the tail is popped, so entering the cell the tail now occupies is
    fatal as well. *)
Theorem game_loop_self_collision fuel g r head tl :
  game_over g = false → paused g = false → snake g = head :: tl →
  in_grid (new_head (direction g) head) →
  let fatal :=
    ∃ g', game_loop fuel g r = Returned (g', r)
          ∧ game_over g' = true ∧ snake g' = snake g in
  (new_head (direction g) head ∈ snake g → fatal)
  ∧ (last (snake g) = Some (new_head (direction g) head) → fatal).
Proof.
  intros Hover Hpaused Hsnake Hin fatal.
  assert (new_head (direction g) head ∈ snake g → fatal) as Hhit.
  { intros Hmem. exists (set_game_over true g). split; [|done].
    by eapply tick_self. }
  split; [exact Hhit|].
  intros Hlast. apply Hhit. rewrite last_Some in Hlast.
  destruct Hlast as [front ->]. apply elem_of_app. right. apply list_elem_of_here.
Qed.

Lemma game_loop_self_collision_witness :
  last (snake scenario_tail) = Some (2, 1)
  ∧ ∃ g', game_loop 0 scenario_tail counting = Returned (g', counting)
          ∧ game_over g' = true ∧ snake g' = [(1, 1); (1, 2); (2, 2); (2, 1)].
Proof.
  split; [reflexivity|].
  assert (in_grid (new_head (direction scenario_tail) (1, 1))) as Hin.
  { inside_grid. }
  exact (proj2 (game_loop_self_collision 0 scenario_tail counting (1, 1)
                  [(1, 2); (2, 2); (2, 1)] eq_refl eq_refl eq_refl Hin) eq_refl).
Defined.

(** ** Direction control *)

Lemma change_direction_running new_direction g :
  game_over g = false →
  change_direction new_direction g
  = if decide (new_direction = opposite (direction g)) then g
    else set_direction new_direction g.
Proof.
  intros Hover. unfold change_direction. rewrite Hover, opposites_lookup.
  destruct new_direction, (direction g) eqn:Hd; cbn;
    repeat case_decide; try done; simplify_eq.
Qed.

(** C4. [change_direction d] leaves the whole game untouched once
    [game_over] is set.  On a game that is not over it leaves the game
    untouched when [d] is the opposite of the current direction, and
    otherwise stores [d] in [direction], every other attribute keeping its
    value.  So asking for the opposite of the current direction never
    changes the direction. *)
Theorem change_direction_spec d g :
  (game_over g = true → change_direction d g = g)
  ∧ (game_over g = false → d = opposite (direction g) →
     change_direction d g = g)
  ∧ (game_over g = false → d ≠ opposite (direction g) →
     direction (change_direction d g) = d
     ∧ snake (change_direction d g) = snake g
     ∧ food (change_direction d g) = food g
     ∧ score (change_direction d g) = score g
     ∧ game_over (change_direction d g) = game_over g
     ∧ paused (change_direction d g) = paused g)
  ∧ direction (change_direction (opposite (direction g)) g) = direction g.
Proof.
  split; [|split; [|split]].
  - intros Hover. unfold change_direction. by rewrite Hover.
  - intros Hover ->. rewrite change_direction_running by done.
    by rewrite decide_True.
  - intros Hover Hne. rewrite change_direction_running by done.
    by rewrite decide_False.
  - destruct (game_over g) eqn:Hover.
    + unfold change_direction. by rewrite Hover.
    + rewrite change_direction_running by done. by rewrite decide_True.
Qed.

Lemma change_direction_spec_witness :
  change_direction UP (set_game_over true scenario_food) = set_game_over true scenario_food
  ∧ change_direction LEFT scenario_food = scenario_food
  ∧ direction (change_direction UP scenario_food) = UP
  ∧ snake (change_direction UP scenario_food) = [(15, 10); (14, 10); (13, 10)]
  ∧ food (change_direction UP scenario_food) = (20, 10)
  ∧ score (change_direction UP scenario_food) = 0
  ∧ game_over (change_direction UP scenario_food) = false
  ∧ paused (change_direction UP scenario_food) = false.
Proof.
  split; [|split].
  - exact (proj1 (change_direction_spec UP (set_game_over true scenario_food)) eq_refl).
  - exact (proj1 (proj2 (change_direction_spec LEFT scenario_food)) eq_refl eq_refl).
  - refine (proj1 (proj2 (proj2 (change_direction_spec UP scenario_food))) eq_refl _).
    discriminate.
Defined.

(** C9. On a game that is not over and heads in direction [d], asking
    first for a perpendicular direction [p] and then for the opposite of
    [d], with no tick in between, leaves the game heading opposite to [d]:
    the second request is judged against [p], which the first one has
    already stored. *)
Theorem change_direction_twice_reverses p g :
  game_over g = false →
  perpendicular p (direction g) →
  direction (change_direction p g) = p
  ∧ direction (change_direction (opposite (direction g)) (change_direction p g))
    = opposite (direction g).
Proof.
  intros Hover [Hne Hnopp].
  rewrite (change_direction_running p) by done.
  rewrite decide_False by done.
  split; [done|].
  rewrite change_direction_running by done. cbn [direction set_direction].
  rewrite decide_False; [done|].
  intros Heq. apply (f_equal opposite) in Heq.
  rewrite !opposite_involutive in Heq. congruence.
Qed.

Lemma change_direction_twice_reverses_witness :
  perpendicular UP (direction scenario_food)
  ∧ direction (change_direction LEFT (change_direction UP scenario_food)) = LEFT.
Proof.
  assert (perpendicular UP (direction scenario_food)) as Hperp.
  { split; discriminate. }
  split; [exact Hperp|].
  exact (proj2 (change_direction_twice_reverses UP scenario_food eq_refl Hperp)).
Defined.

(** ** [list.pop()] on a non-empty list *)

Lemma removelast_sublist (l : list Cell) : removelast l `sublist_of` l.
Proof. rewrite removelast_firstn_len. apply sublist_take. Qed.

Lemma removelast_length (l : list Cell) :
  l ≠ [] → S (length (removelast l)) = length l.
Proof.
  intros Hne. rewrite removelast_firstn_len, length_take.
  destruct l; [done|]. cbn [length]. lia.
Qed.

(** ** Growth and conservation *)

(** C1. On a running game whose moved head is the food cell and hits
    neither wall nor snake, the tick prepends the head without removing the
    tail, so the snake is longer by exactly one, and adds exactly 10 to the
    score.  Both assignments are made before the new food is sought, so
    they hold of the game at every moment from then on; and the tick
    returns as soon as the generator proposes a cell off the grown snake. *)
Theorem game_loop_growth g r head tl :
  game_over g = false → paused g = false → snake g = head :: tl →
  in_grid (new_head (direction g) head) →
  new_head (direction g) head ∉ snake g →
  new_head (direction g) head = food g →
  (∀ fuel,
     let g' := (state_of (game_loop fuel g r)).1 in
     snake g' = new_head (direction g) head :: snake g
     ∧ length (snake g') = S (length (snake g))
     ∧ score g' = score g + 10)
  ∧ (∀ k, candidate r k ∉ new_head (direction g) head :: snake g →
       ∃ g' r', game_loop (S k) g r = Returned (g', r')
                ∧ snake g' = new_head (direction g) head :: snake g
                ∧ length (snake g') = S (length (snake g))
                ∧ score g' = score g + 10).
Proof.
  intros Hover Hpaused Hsnake Hin Hfree Hfood.
  assert (∀ fuel,
     let g' := (state_of (game_loop fuel g r)).1 in
     snake g' = new_head (direction g) head :: snake g
     ∧ length (snake g') = S (length (snake g))
     ∧ score g' = score g + 10) as Hstate.
  { intros fuel. rewrite (tick_eat fuel g r head tl) by done.
    set (g2 := set_score _ _).
    destruct (place_food_frame fuel g2 r) as (Hs & _ & Hsc & _).
    cbn zeta. rewrite Hs, Hsc. done. }
  split; [exact Hstate|].
  intros k Hk.
  destruct (place_food_enough k
              (set_score (score g + 10)
                 (set_snake (new_head (direction g) head :: snake g) g)) r Hk)
    as [[g' r'] Hpf].
  exists g', r'. specialize (Hstate (S k)).
  rewrite (tick_eat (S k) g r head tl) in Hstate |- * by done.
  rewrite Hpf in Hstate |- *. done.
Qed.

(** Where [game_loop_growth] offers no return: when the grown snake covers
    every cell the generator can propose, the tick never leaves the loop. *)
Lemma game_loop_growth_spins fuel g r head tl :
  game_over g = false → paused g = false → snake g = head :: tl →
  in_grid (new_head (direction g) head) →
  new_head (direction g) head ∉ snake g →
  new_head (direction g) head = food g →
  (∀ k, candidate r k ∈ new_head (direction g) head :: snake g) →
  ∃ w, game_loop fuel g r = Spinning w.
Proof.
  intros Hover Hpaused Hsnake Hin Hfree Hfood Hall.
  rewrite (tick_eat fuel g r head tl) by done.
  rewrite place_food_spins by done. eauto.
Qed.

(** C8. On a running game whose moved head is inside the grid, off the
    snake and not the food cell, the tick returns with the head prepended
    and the tail removed, so the length is unchanged, and with the score
    unchanged. *)
Theorem game_loop_conservation fuel g r head tl :
  game_over g = false → paused g = false → snake g = head :: tl →
  in_grid (new_head (direction g) head) →
  new_head (direction g) head ∉ snake g →
  new_head (direction g) head ≠ food g →
  ∃ g', game_loop fuel g r = Returned (g', r)
        ∧ snake g' = new_head (direction g) head :: removelast (snake g)
        ∧ length (snake g') = length (snake g)
        ∧ score g' = score g.
Proof.
  intros Hover Hpaused Hsnake Hin Hfree Hfood.
  eexists. split; [by eapply tick_move|].
  cbn [snake score set_snake length]. repeat split.
  apply removelast_length. by rewrite Hsnake.
Qed.

Lemma game_loop_growth_witness :
  ∃ g' r', game_loop 1 scenario_near counting = Returned (g', r')
           ∧ snake g' = [(20, 10); (19, 10); (18, 10); (17, 10)]
           ∧ length (snake g') = 4%nat
           ∧ score g' = 10.
Proof.
  assert (in_grid (20, 10)) as Hin by inside_grid.
  assert ((20, 10) ∉ [(19, 10); (18, 10); (17, 10)]) as Hfree by absent_cell.
  assert ((0, 1) ∉ [(20, 10); (19, 10); (18, 10); (17, 10)]) as Hcand by absent_cell.
  exact (proj2 (game_loop_growth scenario_near counting (19, 10) [(18, 10); (17, 10)]
                  eq_refl eq_refl eq_refl Hin Hfree eq_refl) 0%nat Hcand).
Defined.

Lemma game_loop_conservation_witness :
  ∃ g', game_loop 0 scenario_food counting = Returned (g', counting)
        ∧ snake g' = [(16, 10); (15, 10); (14, 10)]
        ∧ length (snake g') = 3%nat
        ∧ score g' = 0.
Proof.
  assert (in_grid (16, 10)) as Hin by inside_grid.
  assert ((16, 10) ∉ [(15, 10); (14, 10); (13, 10)]) as Hfree by absent_cell.
  assert ((16, 10) ≠ (20, 10)) as Hfood by discriminate.
  exact (game_loop_conservation 0 scenario_food counting (15, 10) [(14, 10); (13, 10)]
           eq_refl eq_refl eq_refl Hin Hfree Hfood).
Defined.

(** ** Reset *)

Lemma reset_game_unfold fuel g r :
  reset_game fuel g r
  = place_food fuel
      (mkSnakeGame [(15, 10); (14, 10); (13, 10)] (food g) RIGHT 0 false false) r.
Proof. reflexivity. Qed.

Lemma reset_game_returned fuel g r g' r' :
  reset_game fuel g r = Returned (g', r') →
  ∃ k, g' = mkSnakeGame [(15, 10); (14, 10); (13, 10)] (candidate r k) RIGHT 0 false false
       ∧ candidate r k ∉ [(15, 10); (14, 10); (13, 10)].
Proof.
  rewrite reset_game_unfold. intros Hpf.
  apply place_food_returned in Hpf as (k & _ & [= -> ->] & Hfree & _).
  by exists k.
Qed.

(** C7. From any state whatsoever, a returning [reset_game] leaves the
    three-cell snake [(W/2,H/2); (W/2-1,H/2); (W/2-2,H/2)], which is
    [(15,10); (14,10); (13,10)] on the 30 x 20 grid, heading [RIGHT], with
    score 0, both flags cleared, and the food on a grid cell that is not a
    cell of the snake.  It returns as soon as the generator proposes a cell
    off those three, and it never raises. *)
Theorem reset_game_spec g r :
  (∀ fuel g' r',
     reset_game fuel g r = Returned (g', r') →
     snake g' = [(WIDTH `div` 2, HEIGHT `div` 2);
                 (WIDTH `div` 2 - 1, HEIGHT `div` 2);
                 (WIDTH `div` 2 - 2, HEIGHT `div` 2)]
     ∧ snake g' = [(15, 10); (14, 10); (13, 10)]
     ∧ length (snake g') = 3%nat
     ∧ direction g' = RIGHT ∧ score g' = 0
     ∧ game_over g' = false ∧ paused g' = false
     ∧ in_grid (food g') ∧ food g' ∉ snake g')
  ∧ (∀ k, candidate r k ∉ [(15, 10); (14, 10); (13, 10)] →
       ∃ g' r', reset_game (S k) g r = Returned (g', r'))
  ∧ (∀ fuel e w, reset_game fuel g r ≠ Raised e w).
Proof.
  split; [|split].
  - intros fuel g' r' Hreset.
    apply reset_game_returned in Hreset as (k & -> & Hfree).
    cbn [snake food direction score game_over paused length].
    repeat split; try apply candidate_in_grid. exact Hfree.
  - intros k Hk. rewrite reset_game_unfold.
    destruct (place_food_enough k
                (mkSnakeGame [(15, 10); (14, 10); (13, 10)] (food g) RIGHT 0 false false)
                r Hk) as [[g' r'] Hpf].
    eauto.
  - intros fuel e w. rewrite reset_game_unfold. apply place_food_never_raises.
Qed.

Lemma reset_game_spec_witness :
  (∃ g' r', reset_game 1 (set_game_over true scenario_tail) counting = Returned (g', r'))
  ∧ in_grid (0, 1) ∧ (0, 1) ∉ [(15, 10); (14, 10); (13, 10)].
Proof.
  assert ((0, 1) ∉ [(15, 10); (14, 10); (13, 10)]) as Hcand by absent_cell.
  split.
  - exact (proj1 (proj2 (reset_game_spec (set_game_over true scenario_tail) counting))
             0%nat Hcand).
  - exact (proj2 (proj2 (proj2 (proj2 (proj2 (proj2 (proj2
             (proj1 (reset_game_spec (set_game_over true scenario_tail) counting)
                1%nat
                (mkSnakeGame [(15, 10); (14, 10); (13, 10)] (0, 1) RIGHT 0 false false)
                (mkRng (λ n, n) 2) eq_refl)))))))).
Defined.

Example reset_after_game_over :
  reset_game 1 (set_game_over true scenario_tail) counting
  = Returned (mkSnakeGame [(15, 10); (14, 10); (13, 10)] (0, 1) RIGHT 0 false false,
              mkRng (λ n, n) 2).
Proof. vm_compute. reflexivity. Qed.

(** A generator that keeps proposing the snake's head keeps the loop busy:
    fuel 5 is five rounds of sampling, ten draws, and no food yet. *)
Example reset_spinning :
  reset_game 5 class_defaults (mkRng (λ n, if Nat.even n then 15 else 10)%nat 0)
  = Spinning (mkSnakeGame [(15, 10); (14, 10); (13, 10)] (0, 0) RIGHT 0 false false,
              mkRng (λ n, if Nat.even n then 15 else 10)%nat 10).
Proof. vm_compute. reflexivity. Qed.

(** ** Frames of the remaining operations *)

Lemma change_direction_frame d g :
  let g' := change_direction d g in
  snake g' = snake g ∧ food g' = food g ∧ score g' = score g
  ∧ game_over g' = game_over g ∧ paused g' = paused g.
Proof.
  unfold change_direction. destruct (game_over g) eqn:Hover; [done|].
  case_decide; done.
Qed.

Lemma toggle_pause_returned g r w :
  toggle_pause g r = Returned w →
  w = (if game_over g then g else set_paused (negb (paused g)) g, r).
Proof.
  unfold toggle_pause. destruct (game_over g) eqn:Hover; cbn [negb].
  - by intros [= <-].
  - unfold display_and_return. destruct (update_display _); [done|].
    by intros [= <-].
Qed.

Lemma perform_effect fuel o g r g' r' :
  o ≠ Reset →
  perform fuel o (g, r) = Returned (g', r') → effect g g'.
Proof.
  intros Hop. destruct o as [|d| |]; cbn [perform fst snd]; [| | |done].
  - (* game_loop *)
    destruct (game_over g || paused g) eqn:Hidle.
    { unfold game_loop. rewrite Hidle. intros [= <- <-]. by apply effect_none. }
    apply orb_false_iff in Hidle as [Hover Hpaused].
    destruct (snake g) as [|head tl] eqn:Hsnake.
    { unfold game_loop. by rewrite Hover, Hpaused, Hsnake. }
    rewrite (game_loop_running fuel g r head tl) by done. cbn zeta.
    set (nh := new_head (direction g) head).
    destruct (outside_grid nh); [intros [= <- <-]; by apply effect_none|].
    rewrite Hsnake. case_decide as Hhit; [intros [= <- <-]; by apply effect_none|].
    case_decide as Hfood.
    + intros Hpf. apply place_food_returned in Hpf as (k & _ & [= -> ->] & Hfree & _).
      apply (effect_eat _ _ nh); cbn; rewrite ?Hsnake; try done.
      apply candidate_in_grid.
    + intros [= <- <-]. apply (effect_move _ _ nh); cbn; by rewrite ?Hsnake.
  - (* change_direction *)
    intros [= <- <-]. destruct (change_direction_frame d g) as (? & ? & ? & _).
    by apply effect_none.
  - (* toggle_pause *)
    intros Htp. apply toggle_pause_returned in Htp as [= -> ->].
    apply effect_none; by destruct (game_over g).
Qed.

(** ** Invariants of the reachable states *)

Lemma initial_snake_no_overlap : NoDup [(15, 10); (14, 10); (13, 10) : Cell].
Proof. apply (bool_decide_unpack _). by vm_compute. Qed.

Lemma effect_no_overlap g g' : effect g g' → no_overlap g → no_overlap g'.
Proof.
  unfold no_overlap.
  intros [Hs _ _ | nh Hfree Hs _ _ _ | nh Hfree _ _ Hs _ _] Hnd; rewrite Hs.
  - done.
  - by apply NoDup_cons.
  - apply NoDup_cons. split.
    + intros Hin. apply Hfree. eapply elem_of_sublist; [exact Hin|].
      apply removelast_sublist.
    + eapply sublist_NoDup; [exact Hnd|]. apply removelast_sublist.
Qed.

Lemma effect_food_clear g g' : effect g g' → food_clear g → food_clear g'.
Proof.
  unfold food_clear.
  intros [Hs Hf _ | nh _ _ _ Hclear _ | nh _ Hne _ Hs Hf _] Hfc.
  - by rewrite Hs, Hf.
  - exact Hclear.
  - rewrite Hs, Hf. intros [Heq|Hin]%elem_of_cons; [by apply Hne|].
    apply Hfc. eapply elem_of_sublist; [exact Hin|]. apply removelast_sublist.
Qed.

Lemma effect_score g g' :
  effect g g' →
  score g' - score g
  = 10 * (Z.of_nat (length (snake g')) - Z.of_nat (length (snake g))).
Proof.
  intros [Hs _ Hsc | nh _ Hs _ _ Hsc | nh _ _ Hne Hs _ Hsc]; rewrite Hs, Hsc.
  - lia.
  - cbn [length]. lia.
  - cbn [length]. rewrite removelast_length by done. lia.
Qed.

Lemma effect_length g g' :
  effect g g' → (length (snake g) ≤ length (snake g'))%nat.
Proof.
  intros [Hs _ _ | nh _ Hs _ _ _ | nh _ _ Hne Hs _ _]; rewrite Hs.
  - done.
  - cbn [length]. lia.
  - cbn [length]. rewrite removelast_length by done. lia.
Qed.

(** C5. In every state that a reset followed by any sequence of ticks,
    direction requests, pause toggles and resets can produce, the snake has
    no repeated cell and the food is not a cell of the snake.  Moreover
    each of the four operations, run from any state at all, preserves each
    of the two predicates on its own. *)
Theorem snake_food_invariants :
  (∀ g, reachable g → no_overlap g ∧ food_clear g)
  ∧ (∀ fuel o g r g' r',
       perform fuel o (g, r) = Returned (g', r') →
       (no_overlap g → no_overlap g') ∧ (food_clear g → food_clear g')).
Proof.
  assert (∀ fuel g r g' r',
       reset_game fuel g r = Returned (g', r') →
       no_overlap g' ∧ food_clear g') as Hreset.
  { intros fuel g r g' r' Hrun.
    apply reset_game_returned in Hrun as (k & -> & Hfree).
    split; [apply initial_snake_no_overlap | exact Hfree]. }
  assert (∀ fuel o g r g' r',
       perform fuel o (g, r) = Returned (g', r') →
       (no_overlap g → no_overlap g') ∧ (food_clear g → food_clear g')) as Hstep.
  { intros fuel o g r g' r' Hrun. destruct (decide (o = Reset)) as [->|Hop].
    - destruct (Hreset _ _ _ _ _ Hrun). auto.
    - apply perform_effect in Hrun; [|done].
      split; [by apply effect_no_overlap | by apply effect_food_clear]. }
  split; [|exact Hstep].
  induction 1 as [fuel g r g' r' Hrun | fuel o g r g' r' _ [IHn IHf] Hrun].
  - by eapply Hreset.
  - destruct (Hstep _ _ _ _ _ _ Hrun). auto.
Qed.

Lemma scenario_moved_reachable : reachable scenario_moved.
Proof.
  eapply (reachable_perform 0 Step _ (mkRng (λ n, n) 2) _ (mkRng (λ n, n) 2)).
  - by eapply (reachable_reset 1 class_defaults counting).
  - reflexivity.
Defined.

Lemma scenario_fed_reachable : reachable scenario_fed.
Proof.
  eapply (reachable_perform 1 Step _ (after_rounds 1 food_ahead) _
            (after_rounds 2 food_ahead)).
  - by eapply (reachable_reset 1 class_defaults food_ahead).
  - reflexivity.
Defined.

Lemma snake_food_invariants_witness :
  reachable scenario_moved ∧ no_overlap scenario_moved ∧ food_clear scenario_moved.
Proof.
  split; [exact scenario_moved_reachable|].
  exact (proj1 snake_food_invariants scenario_moved scenario_moved_reachable).
Defined.

(** C10. In every state that a reset followed by any sequence of ticks,
    direction requests, pause toggles and resets can produce, the score is
    ten times the number of cells the snake has beyond three, hence a
    non-negative multiple of 10.  Score and length change only together:
    a returning reset sets them to 0 and 3, and any other returning
    operation changes the score by ten times the change of the length. *)
Theorem score_tracks_length :
  (∀ g, reachable g →
     score g = 10 * (Z.of_nat (length (snake g)) - 3)
     ∧ 0 ≤ score g ∧ (10 | score g))
  ∧ (∀ fuel o g r g' r',
       perform fuel o (g, r) = Returned (g', r') →
       (score g' = 0 ∧ length (snake g') = 3%nat)
       ∨ score g' - score g
         = 10 * (Z.of_nat (length (snake g')) - Z.of_nat (length (snake g)))).
Proof.
  split.
  - intros g Hreach.
    assert (score g = 10 * (Z.of_nat (length (snake g)) - 3)
            ∧ (3 ≤ length (snake g))%nat) as [Hscore Hlen].
    { induction Hreach as [fuel g r g' r' Hrun | fuel o g r g' r' _ [IHs IHl] Hrun].
      - apply reset_game_returned in Hrun as (k & -> & _). done.
      - destruct (decide (o = Reset)) as [->|Hop].
        + apply reset_game_returned in Hrun as (k & -> & _). done.
        + apply perform_effect in Hrun; [|done].
          pose proof (effect_score _ _ Hrun). pose proof (effect_length _ _ Hrun).
          lia. }
    split; [exact Hscore|]. split; [lia|].
    exists (Z.of_nat (length (snake g)) - 3). lia.
  - intros fuel o g r g' r' Hrun. destruct (decide (o = Reset)) as [->|Hop].
    + left. apply reset_game_returned in Hrun as (k & -> & _). done.
    + right. apply effect_score. by eapply perform_effect.
Qed.

Lemma score_tracks_length_witness :
  reachable scenario_fed
  ∧ score scenario_fed = 10 * (4 - 3)
  ∧ 0 ≤ score scenario_fed ∧ (10 | score scenario_fed).
Proof.
  split; [exact scenario_fed_reachable|].
  exact (proj1 score_tracks_length scenario_fed scenario_fed_reachable).
Defined.

(** ** No exception on a reachable state *)

Lemma reachable_length g : reachable g → (3 ≤ length (snake g))%nat.
Proof.
  induction 1 as [fuel g r g' r' Hrun | fuel o g r g' r' _ IH Hrun].
  - apply reset_game_returned in Hrun as (k & -> & _). done.
  - destruct (decide (o = Reset)) as [->|Hop].
    + apply reset_game_returned in Hrun as (k & -> & _). done.
    + apply perform_effect in Hrun; [|done].
      pose proof (effect_length _ _ Hrun). lia.
Qed.

(** The [IndexError] of [self.snake[0]] needs an empty snake, which no
    history produces: on a reachable state every operation either returns
    or is still looking for a free cell. *)
Lemma reachable_never_raises fuel o g r e w :
  reachable g → perform fuel o (g, r) ≠ Raised e w.
Proof.
  intros Hlen%reachable_length.
  destruct (snake g) as [|head tl] eqn:Hsnake; [cbn in Hlen; lia|].
  destruct o as [|d| |]; cbn [perform fst snd].
  - destruct (game_over g || paused g) eqn:Hidle.
    { unfold game_loop. by rewrite Hidle. }
    apply orb_false_iff in Hidle as [Hover Hpaused].
    rewrite (game_loop_running fuel g r head tl) by done. cbn zeta.
    repeat case_match; try done. apply place_food_never_raises.
  - done.
  - unfold toggle_pause, display_and_return, update_display. cbn.
    rewrite Hsnake. by repeat case_match.
  - rewrite reset_game_unfold. apply place_food_never_raises.
Qed.

(** ** Food placement on its own *)

Lemma after_rounds_drawn k r :
  drawn (after_rounds k r) = (drawn r + 2 * k)%nat
  ∧ raw (after_rounds k r) = raw r.
Proof.
  revert r. induction k as [|k IH]; intros r; cbn [after_rounds].
  - split; [lia|done].
  - destruct (IH ((randint 0 (HEIGHT - 1) (randint 0 (WIDTH - 1) r).2).2))
      as [-> ->].
    cbn. split; [lia|done].
Qed.

(** X1. A returning [place_food] has put the food on the first proposed
    cell that is off the snake: that cell is inside the grid and not a cell
    of the snake, every proposal before it was a cell of the snake, no
    attribute but [food] has changed, and the generator has been advanced by
    exactly two draws per proposal. *)
Theorem place_food_postcondition fuel g r g' r' :
  place_food fuel g r = Returned (g', r') →
  in_grid (food g') ∧ (food g' ∉ snake g') ∧ g' = set_food (food g') g
  ∧ ∃ k, (k < fuel)%nat
         ∧ food g' = candidate r k
         ∧ (∀ j, (j < k)%nat → candidate r j ∈ snake g)
         ∧ drawn r' = (drawn r + 2 * S k)%nat ∧ raw r' = raw r.
Proof.
  intros Hpf.
  apply place_food_returned in Hpf as (k & Hk & [= -> ->] & Hfree & Hbefore).
  cbn [food snake set_food].
  split; [apply candidate_in_grid|]. split; [exact Hfree|]. split; [done|].
  exists k. destruct (after_rounds_drawn (S k) r) as [Hd Hr]. done.
Qed.

Lemma place_food_postcondition_witness :
  in_grid (food (set_food (0, 1) scenario_fed))
  ∧ food (set_food (0, 1) scenario_fed) ∉ snake (set_food (0, 1) scenario_fed).
Proof.
  pose proof (place_food_postcondition 1 scenario_fed counting
                (set_food (0, 1) scenario_fed) (mkRng (λ n, n) 2) eq_refl)
    as (Hin & Hfree & _).
  exact (conj Hin Hfree).
Defined.

(** The generator that proposes a given cell first. *)
Lemma candidate_chosen (c : Cell) :
  in_grid c →
  candidate (mkRng (λ n, if Nat.even n then Z.to_nat c.1 else Z.to_nat c.2) 0) 0 = c.
Proof.
  destruct c as [x y]. unfold in_grid, candidate. cbn. intros [Hx Hy].
  rewrite !Z2Nat.id by lia. f_equal; apply Z.mod_small; unfold WIDTH, HEIGHT in *; lia.
Qed.

(** X2. [place_food] can return, for some behaviour of the generator, if
    and only if some cell of the grid is off the snake.  On a snake that
    covers the grid the loop never ends, whatever the generator does. *)
Theorem place_food_can_return_iff g :
  (∃ fuel r w, place_food fuel g r = Returned w)
  ↔ (∃ c, in_grid c ∧ c ∉ snake g).
Proof.
  split.
  - intros (fuel & r & w & Hpf).
    apply place_food_returned in Hpf as (k & _ & _ & Hfree & _).
    exists (candidate r k). split; [apply candidate_in_grid | exact Hfree].
  - intros (c & Hin & Hfree).
    set (r := mkRng (λ n, if Nat.even n then Z.to_nat c.1 else Z.to_nat c.2) 0).
    assert (candidate r 0 ∉ snake g) as Hcand by (unfold r; by rewrite candidate_chosen).
    destruct (place_food_enough 0 g r Hcand) as [w Hw]. eauto.
Qed.

(** ** Game over and pause *)

Lemma perform_game_over fuel o g r :
  game_over g = true → o ≠ Reset → perform fuel o (g, r) = Returned (g, r).
Proof.
  intros Hover Hop. destruct o as [|d| |]; cbn [perform fst snd]; [| | |done].
  - unfold game_loop. by rewrite Hover.
  - unfold change_direction. by rewrite Hover.
  - unfold toggle_pause. by rewrite Hover.
Qed.

(** X3. Game over is final short of a reset: once [game_over] is set, any
    sequence of ticks, direction requests and pause toggles returns with
    the whole game, and the generator, exactly as they were. *)
Theorem game_over_terminal fuel ops g r :
  game_over g = true → Reset ∉ ops →
  run fuel ops (g, r) = Returned (g, r).
Proof.
  intros Hover. induction ops as [|o ops IH]; intros Hops; [done|].
  cbn [run]. apply not_elem_of_cons in Hops as [Hop Hops].
  rewrite perform_game_over by done. by apply IH.
Qed.

Lemma game_over_terminal_witness :
  run 0 [Step; SetDirection UP; TogglePause; Step]
    (set_game_over true scenario_food, counting)
  = Returned (set_game_over true scenario_food, counting).
Proof.
  assert (Reset ∉ [Step; SetDirection UP; TogglePause; Step]) as Hops.
  { intros H. repeat (apply elem_of_cons in H as [H|H]; [discriminate H|]).
    by apply elem_of_nil in H. }
  exact (game_over_terminal 0 _ (set_game_over true scenario_food) counting
           eq_refl Hops).
Defined.

(** X4. On a game that is not over (and has a snake to draw),
    [toggle_pause] returns with [paused] negated and snake, food,
    direction, score, [game_over] and the generator as they were, so two
    toggles in a row restore the game exactly. *)
Theorem toggle_pause_flips_and_undoes g r :
  game_over g = false → snake g ≠ [] →
  (∃ g', toggle_pause g r = Returned (g', r)
         ∧ paused g' = negb (paused g)
         ∧ snake g' = snake g ∧ food g' = food g
         ∧ direction g' = direction g ∧ score g' = score g
         ∧ game_over g' = game_over g)
  ∧ run 0 [TogglePause; TogglePause] (g, r) = Returned (g, r).
Proof.
  intros Hover Hsnake.
  assert (∀ g0, game_over g0 = false → snake g0 ≠ [] →
            toggle_pause g0 r = Returned (set_paused (negb (paused g0)) g0, r))
    as Htoggle.
  { intros g0 Hover0 Hsnake0. unfold toggle_pause, display_and_return, update_display.
    rewrite Hover0. cbn. rewrite Hover0. by destruct (snake g0). }
  split.
  { exists (set_paused (negb (paused g)) g). split; [by apply Htoggle|done]. }
  cbn [run perform fst snd]. rewrite Htoggle by done.
  rewrite Htoggle by done. cbn [paused set_paused].
  destruct g as [s f d sc go p]. unfold set_paused. cbn. by rewrite negb_involutive.
Qed.

Lemma toggle_pause_flips_and_undoes_witness :
  (∃ g', toggle_pause scenario_food counting = Returned (g', counting)
         ∧ paused g' = true
         ∧ snake g' = [(15, 10); (14, 10); (13, 10)] ∧ food g' = (20, 10)
         ∧ direction g' = RIGHT ∧ score g' = 0
         ∧ game_over g' = false)
  ∧ run 0 [TogglePause; TogglePause] (scenario_food, counting)
    = Returned (scenario_food, counting).
Proof.
  assert (snake scenario_food ≠ []) as Hsnake by discriminate.
  exact (toggle_pause_flips_and_undoes scenario_food counting eq_refl Hsnake).
Defined.

(** ** More on direction requests *)

Lemma change_direction_heading d g :
  direction (change_direction d g) ≠ opposite (direction g).
Proof.
  unfold change_direction. destruct (game_over g); [by destruct (direction g)|].
  rewrite opposites_lookup. case_decide as Hd.
  - cbn. intros ->. apply Hd. by rewrite opposite_involutive.
  - by destruct (direction g).
Qed.

(** X5. No single [change_direction] call, whatever it asks for and
    whatever the state, leaves the game heading opposite to the direction
    it had before the call. *)
Theorem change_direction_never_reverses d g :
  direction (change_direction d g) ≠ opposite (direction g).
Proof. apply change_direction_heading. Qed.

(** X6. Asking twice for the same direction is the same as asking once. *)
Theorem change_direction_idempotent d g :
  change_direction d (change_direction d g) = change_direction d g.
Proof.
  unfold change_direction. destruct (game_over g) eqn:Hover; [by rewrite Hover|].
  rewrite !opposites_lookup. case_decide as Hd.
  - cbn [game_over set_direction direction]. rewrite Hover.
    case_decide; reflexivity.
  - rewrite Hover. by case_decide.
Qed.

Lemma new_head_direction_inj d d' head : new_head d head = new_head d' head → d = d'.
Proof.
  destruct head as [x y]. destruct d, d'; cbn; intros [= ]; try done; lia.
Qed.

(** X7. With the neck directly behind the head (the cell one unit against
    the current direction), one [change_direction] call, whatever it asks
    for, never aims the next tick at the neck. *)
Theorem single_request_spares_neck d g head neck tl :
  snake g = head :: neck :: tl →
  neck = new_head (opposite (direction g)) head →
  new_head (direction (change_direction d g)) head ≠ neck.
Proof.
  intros _ -> Heq. apply new_head_direction_inj in Heq.
  by apply (change_direction_heading d g).
Qed.

Lemma single_request_spares_neck_witness :
  new_head (direction (change_direction LEFT scenario_food)) (15, 10) ≠ (14, 10).
Proof.
  exact (single_request_spares_neck LEFT scenario_food (15, 10) (14, 10) [(13, 10)]
           eq_refl eq_refl).
Defined.

Lemma double_request_tick fuel p g r head neck tl :
  game_over g = false → paused g = false →
  snake g = head :: neck :: tl →
  neck = new_head (opposite (direction g)) head →
  perpendicular p (direction g) →
  game_loop fuel
    (change_direction (opposite (direction g)) (change_direction p g)) r
  = Returned (set_game_over true (set_direction (opposite (direction g)) g), r).
Proof.
  intros Hover Hpaused Hsnake Hneck [Hne Hnopp].
  assert (change_direction (opposite (direction g)) (change_direction p g)
          = set_direction (opposite (direction g)) g) as ->.
  { rewrite (change_direction_running p) by done. rewrite decide_False by done.
    rewrite change_direction_running by done. cbn [direction set_direction].
    rewrite decide_False; [done|].
    intros Heq. apply (f_equal opposite) in Heq.
    rewrite !opposite_involutive in Heq. congruence. }
  set (g2 := set_direction (opposite (direction g)) g).
  assert (new_head (direction g2) head = neck) as Hnh by (by rewrite Hneck).
  destruct (outside_grid neck) eqn:Hout.
  - apply (tick_wall fuel g2 r head (neck :: tl)); try done.
    rewrite Hnh. by apply outside_grid_true.
  - apply (tick_self fuel g2 r head (neck :: tl)); try done.
    + rewrite Hnh. by apply outside_grid_false.
    + rewrite Hnh. cbn [g2 snake set_direction]. rewrite Hsnake.
      apply elem_of_cons. right. apply list_elem_of_here.
Qed.

(** X8. The trap behind two requests between ticks: on a running game
    whose neck is directly behind the head, asking for a perpendicular
    direction and then for the opposite of the original one makes the next
    tick return with [game_over] set, the game heading opposite to its
    original direction, and snake, food, score, [paused] and the generator
    as they were. *)
Theorem double_request_trap fuel p g r head neck tl :
  game_over g = false → paused g = false →
  snake g = head :: neck :: tl →
  neck = new_head (opposite (direction g)) head →
  perpendicular p (direction g) →
  ∃ g', game_loop fuel
          (change_direction (opposite (direction g)) (change_direction p g)) r
        = Returned (g', r)
        ∧ game_over g' = true
        ∧ direction g' = opposite (direction g)
        ∧ snake g' = snake g ∧ food g' = food g
        ∧ score g' = score g ∧ paused g' = paused g.
Proof.
  intros Hover Hpaused Hsnake Hneck Hperp.
  exists (set_game_over true (set_direction (opposite (direction g)) g)).
  split; [by eapply double_request_tick|done].
Qed.

Lemma double_request_trap_witness :
  perpendicular UP (direction scenario_food)
  ∧ ∃ g', game_loop 0 (change_direction LEFT (change_direction UP scenario_food)) counting
          = Returned (g', counting)
          ∧ game_over g' = true
          ∧ direction g' = LEFT
          ∧ snake g' = [(15, 10); (14, 10); (13, 10)] ∧ food g' = (20, 10)
          ∧ score g' = 0 ∧ paused g' = false.
Proof.
  assert (perpendicular UP (direction scenario_food)) as Hperp.
  { split; discriminate. }
  split; [exact Hperp|].
  exact (double_request_trap 0 UP scenario_food counting (15, 10) (14, 10) [(13, 10)]
           eq_refl eq_refl eq_refl eq_refl Hperp).
Defined.

(** X9. A returning tick of a running game sets [game_over] exactly when
    the moved head is outside the grid or on a cell of the snake; in every
    other case the game goes on. *)
Theorem tick_game_over_iff fuel g r head tl g' r' :
  game_over g = false → paused g = false → snake g = head :: tl →
  game_loop fuel g r = Returned (g', r') →
  game_over g' = true
  ↔ ¬ in_grid (new_head (direction g) head) ∨ new_head (direction g) head ∈ snake g.
Proof.
  intros Hover Hpaused Hsnake.
  rewrite (game_loop_running fuel g r head tl) by done. cbn zeta.
  destruct (outside_grid (new_head (direction g) head)) eqn:Hout.
  { intros [= <- <-]. apply outside_grid_true in Hout. cbn. tauto. }
  apply outside_grid_false in Hout.
  case_decide as Hhit; [intros [= <- <-]; cbn; tauto|].
  assert (game_over g' = false → game_over g' = true
            ↔ ¬ in_grid (new_head (direction g) head)
              ∨ new_head (direction g) head ∈ snake g) as Hgoes.
  { intros ->. split; [done|]. intros [?|?]; done. }
  case_decide.
  - intros Hpf. apply Hgoes.
    apply place_food_returned in Hpf as (k & _ & [= -> ->] & _). exact Hover.
  - intros [= <- <-]. apply Hgoes. exact Hover.
Qed.

Lemma tick_game_over_iff_witness :
  game_over (set_game_over true scenario_tail) = true
  ↔ ¬ in_grid (2, 1) ∨ (2, 1) ∈ snake scenario_tail.
Proof.
  exact (tick_game_over_iff 0 scenario_tail counting (1, 1) [(1, 2); (2, 2); (2, 1)]
           (set_game_over true scenario_tail) counting eq_refl eq_refl eq_refl eq_refl).
Defined.

(** X10. Whatever a tick does, and at whatever moment it is observed, it
    has not touched [direction] or [paused], it has not lowered the score
    nor raised it by more than 10, and it has not cleared [game_over]. *)
Theorem tick_frame fuel g r :
  let g' := (state_of (game_loop fuel g r)).1 in
  direction g' = direction g ∧ paused g' = paused g
  ∧ score g ≤ score g' ≤ score g + 10
  ∧ (game_over g = true → game_over g' = true).
Proof.
  destruct (game_over g || paused g) eqn:Hidle.
  { unfold game_loop. rewrite Hidle. cbn. repeat split; auto; lia. }
  apply orb_false_iff in Hidle as [Hover Hpaused].
  destruct (snake g) as [|head tl] eqn:Hsnake.
  { unfold game_loop. rewrite Hover, Hpaused, Hsnake. cbn. repeat split; auto; lia. }
  rewrite (game_loop_running fuel g r head tl) by done. cbn zeta.
  destruct (outside_grid _); [cbn; repeat split; auto; lia|].
  case_decide; [cbn; repeat split; auto; lia|].
  case_decide; [|cbn; repeat split; auto; lia].
  set (g2 := set_score _ _).
  destruct (place_food_frame fuel g2 r) as (_ & Hd & Hsc & Hgo & Hp).
  rewrite Hd, Hsc, Hp. cbn. repeat split; try lia. congruence.
Qed.

(** Stepping while paused changes nothing, yet direction requests made
    while paused are stored: the two controls do not interact. *)
Lemma change_direction_set_paused d b g :
  change_direction d (set_paused b g) = set_paused b (change_direction d g).
Proof.
  unfold change_direction. cbn [game_over direction set_paused].
  destruct (game_over g); [done|]. by case_decide.
Qed.

Lemma toggle_pause_running g r :
  game_over g = false → snake g ≠ [] →
  toggle_pause g r = Returned (set_paused (negb (paused g)) g, r).
Proof.
  intros Hover Hsnake. unfold toggle_pause, display_and_return, update_display.
  rewrite Hover. cbn. rewrite Hover. by destruct (snake g).
Qed.

(** X11. A direction request and a pause toggle commute: asking for a
    direction just before or just after pausing (or resuming) leads to the
    same game, so requests made while paused are honoured like any other. *)
Theorem direction_and_pause_commute d g r :
  snake g ≠ [] →
  run 0 [SetDirection d; TogglePause] (g, r)
  = run 0 [TogglePause; SetDirection d] (g, r).
Proof.
  intros Hsnake. cbn [run perform fst snd].
  destruct (game_over g) eqn:Hover.
  - unfold change_direction, toggle_pause. rewrite Hover. cbn.
    unfold change_direction, toggle_pause. by rewrite Hover.
  - destruct (change_direction_frame d g) as (Hs & _ & _ & Hgo & Hp).
    rewrite (toggle_pause_running g) by done.
    rewrite (toggle_pause_running (change_direction d g)) by congruence.
    cbn [fst snd]. by rewrite Hp, change_direction_set_paused.
Qed.

Lemma direction_and_pause_commute_witness :
  run 0 [SetDirection UP; TogglePause] (scenario_food, counting)
  = run 0 [TogglePause; SetDirection UP] (scenario_food, counting).
Proof.
  assert (snake scenario_food ≠ []) as Hsnake by discriminate.
  exact (direction_and_pause_commute UP scenario_food counting Hsnake).
Defined.

(** ** The snake on the grid *)

Lemma elem_of_grid_cells c : c ∈ grid_cells ↔ in_grid c.
Proof.
  unfold grid_cells, in_grid. rewrite list_elem_of_bind. split.
  - intros (y & (x & ->%list_elem_of_singleton & Hx%elem_of_seqZ)%list_elem_of_bind
              & Hy%elem_of_seqZ).
    cbn. lia.
  - destruct c as [x y]. cbn. intros [Hx Hy]. exists y.
    rewrite list_elem_of_bind, elem_of_seqZ. split; [|lia].
    exists x. rewrite elem_of_seqZ, list_elem_of_singleton. split; [done|lia].
Qed.

Lemma grid_cells_length : length grid_cells = 600%nat.
Proof. reflexivity. Qed.

Lemma new_head_adjacent d head : adjacent (new_head d head) head.
Proof. destruct head as [x y]. unfold adjacent. destruct d; cbn; lia. Qed.

Lemma contiguous_removelast l : contiguous l → contiguous (removelast l).
Proof.
  induction l as [|a [|b l] IH]; [done..|].
  intros [Hab Hl]. specialize (IH Hl).
  change (removelast (a :: b :: l)) with (a :: removelast (b :: l)).
  destruct l as [|c l]; [done|].
  change (removelast (b :: c :: l)) with (b :: removelast (c :: l)) in IH |- *.
  done.
Qed.

(** What a returning operation other than a reset does to snake and food,
    with the place of the new head spelled out. *)
Lemma perform_advance fuel o g r g' r' :
  o ≠ Reset →
  perform fuel o (g, r) = Returned (g', r') →
  (snake g' = snake g ∧ food g' = food g)
  ∨ ∃ head tl,
      snake g = head :: tl
      ∧ in_grid (new_head (direction g) head)
      ∧ (new_head (direction g) head ∉ snake g)
      ∧ ((snake g' = new_head (direction g) head :: snake g
          ∧ in_grid (food g') ∧ (food g' ∉ snake g'))
         ∨ (snake g' = new_head (direction g) head :: removelast (snake g)
            ∧ food g' = food g)).
Proof.
  intros Hop. destruct o as [|d| |]; cbn [perform fst snd]; [| | |done].
  - destruct (game_over g || paused g) eqn:Hidle.
    { unfold game_loop. rewrite Hidle. intros [= <- <-]. by left. }
    apply orb_false_iff in Hidle as [Hover Hpaused].
    destruct (snake g) as [|head tl] eqn:Hsnake.
    { unfold game_loop. rewrite Hover, Hpaused, Hsnake. cbn [orb]. done. }
    rewrite (game_loop_running fuel g r head tl) by done. cbn zeta.
    destruct (outside_grid _) eqn:Hout; [intros [= <- <-]; by left|].
    apply outside_grid_false in Hout.
    rewrite Hsnake.
    case_decide as Hhit; [intros [= <- <-]; by left|].
    intros Hrun. right. exists head, tl. split; [done|]. split; [done|].
    split; [done|]. revert Hrun. case_decide as Hfood.
    + intros Hpf. apply place_food_returned in Hpf as (k & _ & [= -> ->] & Hfree & _).
      left. cbn. split; [done|].
      split; [apply candidate_in_grid|exact Hfree].
    + intros [= <- <-]. right. by cbn.
  - intros [= <- <-]. destruct (change_direction_frame d g) as (? & ? & _). by left.
  - intros Htp. apply toggle_pause_returned in Htp as [= -> ->].
    left. by destruct (game_over g).
Qed.

Lemma initial_snake_within_grid c :
  Forall in_grid [(15, 10); (14, 10); (13, 10) : Cell] ∧ in_grid (candidate c 0).
Proof.
  split; [|apply candidate_in_grid].
  repeat (apply Forall_cons; split; [inside_grid|]). apply Forall_nil_2.
Qed.

Lemma Forall_removelast (P : Cell → Prop) l : Forall P l → Forall P (removelast l).
Proof.
  rewrite !Forall_forall. intros Hall c Hc. apply Hall.
  eapply elem_of_sublist; [exact Hc|]. apply removelast_sublist.
Qed.

Lemma perform_within_grid fuel o g r g' r' :
  perform fuel o (g, r) = Returned (g', r') → within_grid g → within_grid g'.
Proof.
  intros Hrun [Hsnake Hfood]. destruct (decide (o = Reset)) as [->|Hop].
  - apply reset_game_returned in Hrun as (k & -> & _).
    split; [apply (initial_snake_within_grid r)|apply candidate_in_grid].
  - apply perform_advance in Hrun; [|done].
    destruct Hrun
      as [[Hs Hf] | (head & tl & _ & Hin & _ & [(Hs & Hf & _) | [Hs Hf]])];
      unfold within_grid; rewrite Hs.
    + by rewrite Hf.
    + split; [by apply Forall_cons|done].
    + rewrite Hf. split; [|done]. apply Forall_cons. split; [done|].
      by apply Forall_removelast.
Qed.

(** X12. In every state that a reset followed by any sequence of ticks,
    direction requests, pause toggles and resets can produce, every cell of
    the snake and the food cell lie inside the grid; and each returning
    operation, from any state where that holds, keeps it so. *)
Theorem snake_and_food_stay_on_grid :
  (∀ g, reachable g → Forall in_grid (snake g) ∧ in_grid (food g))
  ∧ (∀ fuel o g r g' r',
       perform fuel o (g, r) = Returned (g', r') →
       within_grid g → within_grid g').
Proof.
  split; [|apply perform_within_grid].
  induction 1 as [fuel g r g' r' Hrun | fuel o g r g' r' _ IH Hrun].
  - apply reset_game_returned in Hrun as (k & -> & _).
    split; [apply (initial_snake_within_grid r)|apply candidate_in_grid].
  - by eapply perform_within_grid.
Qed.

Lemma snake_and_food_stay_on_grid_witness :
  Forall in_grid (snake scenario_fed) ∧ in_grid (food scenario_fed).
Proof.
  exact (proj1 snake_and_food_stay_on_grid scenario_fed scenario_fed_reachable).
Defined.

Lemma contiguous_grow a head tl :
  adjacent a head → contiguous (head :: tl) → contiguous (a :: head :: tl).
Proof. by split. Qed.

Lemma contiguous_shift a head tl :
  adjacent a head → contiguous (head :: tl) →
  contiguous (a :: removelast (head :: tl)).
Proof.
  intros Hadj Hl. apply contiguous_removelast in Hl.
  destruct tl as [|b tl]; [done|].
  change (removelast (head :: b :: tl)) with (head :: removelast (b :: tl)) in Hl |- *.
  by split.
Qed.

Lemma perform_contiguous fuel o g r g' r' :
  perform fuel o (g, r) = Returned (g', r') →
  contiguous (snake g) → contiguous (snake g').
Proof.
  intros Hrun Hcont. destruct (decide (o = Reset)) as [->|Hop].
  - apply reset_game_returned in Hrun as (k & -> & _).
    cbn. unfold adjacent. cbn. lia.
  - apply perform_advance in Hrun; [|done].
    destruct Hrun
      as [[Hs _] | (head & tl & Hsnake & _ & _ & [(Hs & _) | [Hs _]])];
      rewrite Hs; [done|..]; rewrite Hsnake in Hcont |- *.
    + apply contiguous_grow; [apply new_head_adjacent|done].
    + apply contiguous_shift; [apply new_head_adjacent|done].
Qed.

(** X13. In every state that a reset followed by any sequence of
    operations can produce, each cell of the snake shares a side with the
    next one, from head to tail; and each returning operation, from any
    state with such a snake, returns with such a snake. *)
Theorem snake_stays_contiguous :
  (∀ g, reachable g → contiguous (snake g))
  ∧ (∀ fuel o g r g' r',
       perform fuel o (g, r) = Returned (g', r') →
       contiguous (snake g) → contiguous (snake g')).
Proof.
  split; [|apply perform_contiguous].
  induction 1 as [fuel g r g' r' Hrun | fuel o g r g' r' _ IH Hrun].
  - apply reset_game_returned in Hrun as (k & -> & _).
    cbn. unfold adjacent. cbn. lia.
  - by eapply perform_contiguous.
Qed.

Lemma snake_stays_contiguous_witness : contiguous (snake scenario_fed).
Proof.
  exact (proj1 snake_stays_contiguous scenario_fed scenario_fed_reachable).
Defined.

(** The invariants of a reachable state, gathered. *)
Lemma reachable_facts g :
  reachable g →
  no_overlap g ∧ food_clear g ∧ within_grid g
  ∧ score g = 10 * (Z.of_nat (length (snake g)) - 3).
Proof.
  induction 1 as [fuel g r g' r' Hrun | fuel o g r g' r' _ (IHn & IHf & IHg & IHs) Hrun].
  - apply reset_game_returned in Hrun as (k & -> & Hfree).
    split; [apply initial_snake_no_overlap|]. split; [exact Hfree|].
    split; [|done].
    split; [apply (initial_snake_within_grid r)|apply candidate_in_grid].
  - split; [|split; [|split]].
    + destruct (decide (o = Reset)) as [->|Hop].
      * apply reset_game_returned in Hrun as (k & -> & _).
        apply initial_snake_no_overlap.
      * eapply effect_no_overlap; [by eapply perform_effect|done].
    + destruct (decide (o = Reset)) as [->|Hop].
      * by apply reset_game_returned in Hrun as (k & -> & ?).
      * eapply effect_food_clear; [by eapply perform_effect|done].
    + by eapply perform_within_grid.
    + destruct (decide (o = Reset)) as [->|Hop].
      * by apply reset_game_returned in Hrun as (k & -> & ?).
      * apply perform_effect in Hrun; [|done].
        pose proof (effect_score _ _ Hrun). lia.
Qed.

(** X14. The snake never fills the grid: in every reachable state the
    snake has at most 599 of the 600 cells, the food holding one more, and
    so the score is at most 5960. *)
Theorem snake_leaves_room g :
  reachable g →
  (length (snake g) < Z.to_nat (WIDTH * HEIGHT))%nat ∧ score g ≤ 5960.
Proof.
  intros (Hnd & Hfc & [Hsnake Hfood] & Hscore)%reachable_facts.
  assert (length (food g :: snake g) ≤ length grid_cells)%nat as Hlen.
  { apply submseteq_length, NoDup_submseteq.
    - by apply NoDup_cons.
    - intros c [->|Hc]%elem_of_cons; apply elem_of_grid_cells; [done|].
      rewrite Forall_forall in Hsnake. by apply Hsnake. }
  rewrite grid_cells_length in Hlen. cbn [length] in Hlen.
  change (Z.to_nat (WIDTH * HEIGHT)) with 600%nat. lia.
Qed.

Lemma snake_leaves_room_witness :
  (length (snake scenario_fed) < 600)%nat ∧ score scenario_fed ≤ 5960.
Proof.
  exact (snake_leaves_room scenario_fed scenario_fed_reachable).
Defined.

(** ** Filling the grid *)

(** X15. Eating the food on the last free cell hangs the game: on a
    running game whose moved head is the food and whose snake, with that
    head added, covers every cell of the grid, the tick has grown the snake
    and added 10 to the score but never returns, however long it runs and
    whatever the generator yields. *)
Theorem tick_onto_last_cell_never_returns fuel g r head tl :
  game_over g = false → paused g = false → snake g = head :: tl →
  in_grid (new_head (direction g) head) →
  new_head (direction g) head ∉ snake g →
  new_head (direction g) head = food g →
  (∀ c, in_grid c → c ∈ new_head (direction g) head :: snake g) →
  ∃ w, game_loop fuel g r = Spinning w
       ∧ snake w.1 = new_head (direction g) head :: snake g
       ∧ score w.1 = score g + 10.
Proof.
  intros Hover Hpaused Hsnake Hin Hfree Hfood Hfull.
  rewrite (tick_eat fuel g r head tl) by done.
  rewrite place_food_spins; [by eexists|].
  intros k. apply Hfull, candidate_in_grid.
Qed.

Lemma scenario_last_cell_covers c :
  in_grid c → c ∈ (0, 19) :: snake scenario_last_cell.
Proof.
  intros Hc%elem_of_grid_cells. revert c Hc. apply Forall_forall.
  apply (bool_decide_unpack _). vm_compute. exact I.
Qed.

Lemma tick_onto_last_cell_never_returns_witness :
  ∃ w, game_loop 50 scenario_last_cell counting = Spinning w
       ∧ snake w.1 = (0, 19) :: snake scenario_last_cell
       ∧ score w.1 = 5970.
Proof.
  assert (in_grid (0, 19)) as Hin by inside_grid.
  assert ((0, 19) ∉ snake scenario_last_cell) as Hfree.
  { apply (bool_decide_unpack _). vm_compute. exact I. }
  exact (tick_onto_last_cell_never_returns 50 scenario_last_cell counting (1, 19)
           (tail (tail (reverse serpentine)))
           eq_refl eq_refl eq_refl Hin Hfree eq_refl scenario_last_cell_covers).
Defined.

(** ** The cells of the snake across a plain move *)

Lemma elem_of_removelast (l : list Cell) c :
  NoDup l → c ∈ removelast l ↔ c ∈ l ∧ last l ≠ Some c.
Proof.
  intros Hnd. destruct (last l) as [x|] eqn:Hlast.
  - apply last_Some in Hlast as [front ->].
    rewrite removelast_last. apply NoDup_app in Hnd as (_ & Hdisj & _).
    rewrite elem_of_app, list_elem_of_singleton. split.
    + intros Hc. split; [by left|]. intros [= ->].
      apply (Hdisj _ Hc), list_elem_of_here.
    + intros [[Hc| ->] Hne]; [done|]. by destruct Hne.
  - apply last_None in Hlast as ->. cbn. split; [by intros ?%elem_of_nil|].
    by intros [?%elem_of_nil _].
Qed.

(** X16. A plain move of a snake without repeated cells takes exactly the
    new head's cell and gives back exactly the tail's: afterwards a cell
    belongs to the snake if and only if it is the moved head, or was a cell
    of the snake other than its last. *)
Theorem plain_move_cells fuel g r head tl :
  game_over g = false → paused g = false → snake g = head :: tl →
  no_overlap g →
  in_grid (new_head (direction g) head) →
  new_head (direction g) head ∉ snake g →
  new_head (direction g) head ≠ food g →
  ∃ g', game_loop fuel g r = Returned (g', r)
        ∧ ∀ c, c ∈ snake g'
               ↔ c = new_head (direction g) head
                 ∨ (c ∈ snake g ∧ last (snake g) ≠ Some c).
Proof.
  intros Hover Hpaused Hsnake Hnd Hin Hfree Hfood.
  eexists. split; [by eapply tick_move|].
  intros c. cbn [snake set_snake]. rewrite elem_of_cons.
  by rewrite elem_of_removelast.
Qed.

Lemma plain_move_cells_witness :
  ∃ g', game_loop 0 scenario_food counting = Returned (g', counting)
        ∧ ∀ c, c ∈ snake g'
               ↔ c = (16, 10)
                 ∨ (c ∈ snake scenario_food ∧ last (snake scenario_food) ≠ Some c).
Proof.
  assert (no_overlap scenario_food) as Hnd by apply initial_snake_no_overlap.
  assert (in_grid (16, 10)) as Hin by inside_grid.
  assert ((16, 10) ∉ [(15, 10); (14, 10); (13, 10)]) as Hfree by absent_cell.
  assert ((16, 10) ≠ (20, 10)) as Hfood by discriminate.
  exact (plain_move_cells 0 scenario_food counting (15, 10) [(14, 10); (13, 10)]
           eq_refl eq_refl eq_refl Hnd Hin Hfree Hfood).
Defined.

(** ** Restart *)

(** X17. The restart action is safe from any state, even one without a
    snake: the display that follows the reset always finds a head to draw,
    so the action never raises and ends exactly as [reset_game] does. *)
Theorem action_restart_is_reset fuel g r :
  action_restart fuel g r = reset_game fuel g r
  ∧ ∀ e w, action_restart fuel g r ≠ Raised e w.
Proof.
  assert (action_restart fuel g r = reset_game fuel g r) as Heq.
  { unfold action_restart. destruct (reset_game fuel g r) as [[g' r']| |] eqn:Hrun;
      [|done..].
    by apply reset_game_returned in Hrun as (k & -> & _). }
  split; [exact Heq|]. intros e w. rewrite Heq, reset_game_unfold.
  apply place_food_never_raises.
Qed.

(** ** The board text *)











Example board_shows_scenario_food :
  (λ text, (take 6 (drop (61 * 10 + 2 * 13) text), take 2 (drop (61 * 10 + 2 * 20) text)))
    <$> board_text scenario_food
  = Some (BODY_GLYPH ++ BODY_GLYPH ++ HEAD_GLYPH, FOOD_GLYPH).
Proof. vm_compute. reflexivity. Qed.

(** ** The styled spans *)

Lemma enumerate_index {A : Type} (l : list A) (yl : Z * A) :
  yl ∈ enumerate l → 0 ≤ yl.1 < Z.of_nat (length l).
Proof.
  unfold enumerate. intros Hyl.
  assert (yl.1 ∈ (zip (seqZ 0 (Z.of_nat (length l))) l).*1) as Hfst
    by (by apply list_elem_of_fmap_2).
  rewrite fst_zip in Hfst by (rewrite length_seqZ; lia).
  apply elem_of_seqZ in Hfst. lia.
Qed.

Lemma enumerate_lookup {A : Type} (l : list A) (y : Z) :
  0 ≤ y < Z.of_nat (length l) → ∃ a, (y, a) ∈ enumerate l.
Proof.
  intros Hy. destruct (lookup_lt_is_Some_2 l (Z.to_nat y)) as [a Ha]; [lia|].
  exists a. unfold enumerate.
  apply list_elem_of_lookup. exists (Z.to_nat y).
  apply lookup_zip_with_Some. exists y, a. split; [done|]. split; [|done].
  rewrite lookup_seqZ_lt by lia. f_equal. lia.
Qed.

Lemma stylize_calls_elem g head tl :
  snake g = head :: tl →
  ∃ calls, stylize_calls g = Some calls
           ∧ ∀ st a b,
               (st, a, b) ∈ calls
               ↔ ∃ c, in_grid c ∧ cell_style g head c = Some st
                      ∧ a = c.1 * 2 + c.2 ∧ b = c.1 * 2 + c.2 + 2.
Proof.
  intros Hsnake. unfold stylize_calls, board_lines. rewrite Hsnake.
  set (rows := (λ y, str_join [] ((λ x, cell_glyph g head (x, y)) <$> seqZ 0 WIDTH))
                 <$> seqZ 0 HEIGHT).
  assert (Z.of_nat (length rows) = HEIGHT) as Hlen
    by (unfold rows; by rewrite length_fmap, length_seqZ).
  eexists. split; [reflexivity|]. intros st a b.
  rewrite list_elem_of_bind. split.
  - intros (yl & (x & Hcall & Hx%elem_of_seqZ)%list_elem_of_bind & Hyl%enumerate_index).
    rewrite Hlen in Hyl. cbn zeta in Hcall.
    destruct (cell_style g head (x, yl.1)) as [st'|] eqn:Hst;
      [|by apply elem_of_nil in Hcall].
    apply list_elem_of_singleton in Hcall as [= -> -> ->].
    exists (x, yl.1). unfold in_grid. cbn. repeat split; try done; lia.
  - intros ([x y] & [Hx Hy] & Hst & -> & ->). cbn in Hx, Hy, Hst |- *.
    destruct (enumerate_lookup rows y) as [line Hline]; [lia|].
    exists (y, line). split; [|done]. apply list_elem_of_bind.
    exists x. rewrite elem_of_seqZ. split; [|lia].
    cbn. rewrite Hst. apply list_elem_of_here.
Qed.









(** The snake of [scenario_food] lies on row 10, its text at offsets 636
    to 641 and the food's at 650; the spans asked for are these. *)
Example stylize_calls_scenario_food :
  stylize_calls scenario_food
  = Some [("bright_green"%string, 36, 38); ("bright_green"%string, 38, 40);
          ("bold bright_green"%string, 40, 42); ("bold bright_red"%string, 50, 52)].
Proof. vm_compute. reflexivity. Qed.

(** ** The board of a reachable state *)



(** The control-flow view of [update_display] used by the operations
    agrees with the board: it raises exactly when the game is not over and
    there is no board to draw. *)
Lemma update_display_board g :
  update_display g = None ↔ game_over g = true ∨ is_Some (board_text g).
Proof.
  unfold update_display, board_text, board_lines.
  destruct (game_over g); [by split; [left|]|].
  destruct (snake g); cbn; split; try done.
  - by intros [?|[? ?]].
  - intros _. right. by eexists.
Qed.

(** ** The food between meals *)

(** X21. The food moves exactly when it is eaten: a returning operation
    other than a reset either leaves food and score as they were, or has
    put the food on a different cell, made the old food cell the head of a
    snake longer by that one cell, and added 10 to the score. *)
Theorem food_moves_only_when_eaten fuel o g r g' r' :
  o ≠ Reset →
  perform fuel o (g, r) = Returned (g', r') →
  (food g' = food g ∧ score g' = score g)
  ∨ (food g' ≠ food g ∧ snake g' = food g :: snake g ∧ score g' = score g + 10).
Proof.
  intros Hop. destruct o as [|d| |]; cbn [perform fst snd]; [| | |done].
  - destruct (game_over g || paused g) eqn:Hidle.
    { unfold game_loop. rewrite Hidle. intros [= <- <-]. by left. }
    apply orb_false_iff in Hidle as [Hover Hpaused].
    destruct (snake g) as [|head tl] eqn:Hsnake.
    { unfold game_loop. rewrite Hover, Hpaused, Hsnake. cbn [orb]. done. }
    rewrite (game_loop_running fuel g r head tl) by done. cbn zeta.
    destruct (outside_grid _); [intros [= <- <-]; by left|].
    rewrite Hsnake. case_decide as Hhit; [intros [= <- <-]; by left|].
    case_decide as Hfood.
    + intros Hpf. apply place_food_returned in Hpf as (k & _ & [= -> ->] & Hfree & _).
      right. cbn in Hfree |- *. rewrite <- Hfood. split; [|done].
      intros Heq. apply Hfree. rewrite Heq. apply list_elem_of_here.
    + intros [= <- <-]. by left.
  - intros [= <- <-]. destruct (change_direction_frame d g) as (_ & ? & ? & _). by left.
  - intros Htp. apply toggle_pause_returned in Htp as [= -> ->].
    left. by destruct (game_over g).
Qed.

Lemma food_moves_only_when_eaten_witness :
  (food (set_food (0, 1) (set_score 10 (set_snake ((20, 10) :: snake scenario_near)
                                          scenario_near)))
   = food scenario_near
   ∧ 10 = score scenario_near)
  ∨ ((0, 1) ≠ food scenario_near
     ∧ (20, 10) :: snake scenario_near = food scenario_near :: snake scenario_near
     ∧ 10 = score scenario_near + 10).
Proof.
  assert (Step ≠ Reset) as Hop by discriminate.
  exact (food_moves_only_when_eaten 1 Step scenario_near counting
           (set_food (0, 1) (set_score 10 (set_snake ((20, 10) :: snake scenario_near)
                                             scenario_near)))
           (mkRng (λ n, n) 2) Hop eq_refl).
Defined.

Example scenario_last_cell_is_a_snake :
  length (snake scenario_last_cell) = 599%nat
  ∧ bool_decide (NoDup (snake scenario_last_cell)) = true
  ∧ bool_decide (food scenario_last_cell ∉ snake scenario_last_cell) = true
  ∧ score scenario_last_cell = 10 * (599 - 3).
Proof. vm_compute. done. Qed.

Lemma place_food_can_return_iff_witness :
  ∃ fuel r w, place_food fuel scenario_food r = Returned w.
Proof.
  assert (in_grid (0, 0)) as Hin by inside_grid.
  assert ((0, 0) ∉ snake scenario_food) as Hfree by absent_cell.
  exact (proj2 (place_food_can_return_iff scenario_food)
           (ex_intro _ (0, 0) (conj Hin Hfree))).
Defined.

Lemma tick_frame_witness :
  game_over (state_of (game_loop 0 (set_game_over true scenario_food) counting)).1 = true.
Proof.
  exact (proj2 (proj2 (proj2
           (tick_frame 0 (set_game_over true scenario_food) counting))) eq_refl).
Defined.
